(** * libmultiprocess: the proxy skeleton of [include/mp/proxy.h]

  A shallow embedding of the declarations of [mp/proxy.h]: the type-level
  function traits, the method trait dispatch, the field accessor flags,
  the server proxy with its shared implementation pointer, the client
  proxy with its cleanup registration, and the callback wrapper.

  C++ types are data ([CppType], [TypeList]); template specialisation is a
  function by cases on its argument; objects live in explicit stores that
  every operation threads through. *)

From Stdlib Require Import ZArith Lia String.
From stdpp Require Import gmap strings list fin_maps.

(** ** C++ types and type lists *)

Module Types.

(** The C++ types that method signatures are built from. *)
Inductive CppType :=
| TVoid
| TBool
| TInt
| TDouble
| TString
| TNamed (name : string)
| TPtr (pointee : CppType)
| TRef (referent : CppType).

#[global] Instance CppType_eq_dec : EqDecision CppType.
Proof. solve_decision. Defined.

(** [std::is_same<A, B>::value] *)
Definition is_same (A B : CppType) : bool := bool_decide (A = B).

(** [TypeList<Ts...>] of [mp/util.h]: an ordered pack of types. *)
Definition TypeList := list CppType.

(** [std::conditional<B, T, F>::type] *)
Definition conditional {T : Type} (B : bool) (t f : T) : T :=
  if B then t else f.

(** The one shape of function type [FunctionTraits] is specialised for:
    [_Result (_Class::*const)(_Params...)]. *)
Record MemFnPtr := {
  _Class : string;
  _Result : CppType;
  _Params : TypeList
}.

End Types.

(** ** [FunctionTraits]: result and parameter types of a method pointer *)

Module FunctionTraits.
Import Types.

Definition Params (Fn : MemFnPtr) : TypeList := _Params Fn.

Definition Result (Fn : MemFnPtr) : CppType := _Result Fn.

(** [std::tuple_element<N, std::tuple<_Params...>>::type]; an index past the
    end names no type. *)
Definition Param (Fn : MemFnPtr) (N : nat) : option CppType := _Params Fn !! N.

Definition Fields (Fn : MemFnPtr) : TypeList :=
  conditional (is_same TVoid (Result Fn)) (Params Fn) (_Params Fn ++ [_Result Fn]).

End FunctionTraits.

(** ** Field accessor flags *)

Module Accessors.
Local Open Scope Z_scope.

Definition FIELD_IN : Z := 1.
Definition FIELD_OUT : Z := 2.
Definition FIELD_OPTIONAL : Z := 4.
Definition FIELD_REQUESTED : Z := 8.
Definition FIELD_BOXED : Z := 16.

(** Conversion of an [int] to [bool]: every non-zero value is [true]. *)
Definition to_bool (z : Z) : bool := negb (z =? 0).

(** The static members of [Accessor<Field, flags>]; [in] is spelled [in_]
    because [in] is reserved.  The base class [Field] is carried along
    untouched. *)
Record AccessorMembers (Field : Type) := {
  field : Field;
  in_ : bool;
  out : bool;
  optional : bool;
  requested : bool;
  boxed : bool
}.
Arguments field {Field} _.
Arguments in_ {Field} _.
Arguments out {Field} _.
Arguments optional {Field} _.
Arguments requested {Field} _.
Arguments boxed {Field} _.

Definition Accessor {Field : Type} (f : Field) (flags : Z) : AccessorMembers Field :=
  {| field := f;
     in_ := to_bool (Z.land flags FIELD_IN);
     out := to_bool (Z.land flags FIELD_OUT);
     optional := to_bool (Z.land flags FIELD_OPTIONAL);
     requested := to_bool (Z.land flags FIELD_REQUESTED);
     boxed := to_bool (Z.land flags FIELD_BOXED) |}.

(** The flags word with exactly the chosen bits set. *)
Definition flags_of (i o p r b : bool) : Z :=
  Z.lor (if i then FIELD_IN else 0)
    (Z.lor (if o then FIELD_OUT else 0)
       (Z.lor (if p then FIELD_OPTIONAL else 0)
          (Z.lor (if r then FIELD_REQUESTED else 0)
             (if b then FIELD_BOXED else 0)))).

End Accessors.

(** ** Values and contexts shared by both sides of a connection *)

Module Common.

(** Runtime values passed to and returned from native methods. *)
Inductive Value :=
| VVoid
| VBool (b : bool)
| VInt (z : Z)
| VString (s : string).

#[global] Instance Value_eq_dec : EqDecision Value.
Proof. solve_decision. Defined.

(** How a native call ends: it returns a value ([VVoid] for a [void]
    method) or throws. *)
Inductive Completion :=
| Returned (v : Value)
| Thrown (what : string).

#[global] Instance Completion_eq_dec : EqDecision Completion.
Proof. solve_decision. Defined.

(** What an expression of the proxy layer evaluates to: a completion, or
    nothing the language defines (an access through a null or dangling
    pointer). *)
Inductive Outcome :=
| Completes (c : Completion)
| UndefinedBehaviour.

(** [struct ProxyContext { Connection* connection; }]: connections are named
    by their address, [None] is the null pointer. *)
Record ProxyContext := { connection : option nat }.

End Common.

(** ** Server side: [ProxyServerBase] and the method trait dispatch *)

Module Server.
Import Types Common.

(** A bound [ProxyMethod<MethodParams>::impl]: a pointer to a member
    function of [Impl], given by its type and by what calling it does to the
    object it is called on. *)
Record NativeMethod (Impl : Type) := {
  signature : MemFnPtr;
  body : Impl -> list Value -> Impl * Completion
}.
Arguments signature {Impl} _.
Arguments body {Impl} _ _ _.

(** [std::shared_ptr<Impl>]: the address of a control block, or empty. *)
Definition shared_ptr := option nat.

(** The control block a [shared_ptr] points to: the number of owners and the
    managed object. *)
Record ControlBlock (Impl : Type) := {
  use_count : nat;
  object : Impl
}.
Arguments use_count {Impl} _.
Arguments object {Impl} _.

(** [shared_ptr::get]: the stored pointer, null when empty. *)
Definition get (p : shared_ptr) : option nat := p.

(** Giving up one ownership of the block at [l]; the last owner deletes the
    object. *)
Definition release {Impl : Type} (l : nat) (h : gmap nat (ControlBlock Impl))
  : gmap nat (ControlBlock Impl) :=
  match h !! l with
  | Some blk =>
      match use_count blk with
      | S (S n) => <[l := {| use_count := S n; object := object blk |}]> h
      | _ => delete l h
      end
  | None => h
  end.

(** [shared_ptr::reset]: release what is owned, if anything, and become
    empty. *)
Definition reset {Impl : Type} (p : shared_ptr) (h : gmap nat (ControlBlock Impl))
  : shared_ptr * gmap nat (ControlBlock Impl) :=
  match p with
  | Some l => (None, release l h)
  | None => (None, h)
  end.

(** The data members of [ProxyServerBase<Interface, Impl>]. *)
Record ProxyServerBase := {
  m_impl : shared_ptr;
  m_context : ProxyContext
}.

(** The objects of the server process: control blocks by address and server
    proxies by address. *)
Record State (Impl : Type) := {
  heap : gmap nat (ControlBlock Impl);
  servers : gmap nat ProxyServerBase
}.
Arguments heap {Impl} _.
Arguments servers {Impl} _.

(** The part of a [ServerContext] that [invoke] reads: the reference
    [proxy_server], as the address of the server proxy. *)
Record ServerContext := { proxy_server : nat }.

(** Modelled from the spec: the constructor [ProxyServerBase(impl,
    connection)], only declared in [proxy.h]: "construct by taking ownership
    (shared) of a native implementation object and a reference to the owning
    connection".  The new proxy is placed at address [self]. *)
Definition ProxyServerBase_ctor {Impl : Type} (self : nat) (impl : shared_ptr)
  (conn : nat) (st : State Impl) : State Impl :=
  {| heap := heap st;
     servers := <[self := {| m_impl := impl; m_context := {| connection := Some conn |} |}]>
                  (servers st) |}.

(** Modelled from the spec: [invokeDestroy()], only declared in [proxy.h]:
    "releases the held implementation object early (sets the owning reference
    to empty) without destroying the server proxy object itself". *)
Definition invokeDestroy {Impl : Type} (self : nat) (st : State Impl) : State Impl :=
  match servers st !! self with
  | Some srv =>
      let '(p, h) := reset (m_impl srv) (heap st) in
      {| heap := h;
         servers := <[self := {| m_impl := p; m_context := m_context srv |}]> (servers st) |}
  | None => st
  end.

(** Modelled from the spec: the destructor [~ProxyServerBase()], only
    declared in [proxy.h]: "if invokeDestroy was not already called, releases
    the implementation object as part of teardown".  The proxy object itself
    is gone afterwards. *)
Definition ProxyServerBase_dtor {Impl : Type} (self : nat) (st : State Impl) : State Impl :=
  match servers st !! self with
  | Some srv =>
      let h := match get (m_impl srv) with
               | Some l => release l (heap st)
               | None => heap st
               end in
      {| heap := h; servers := delete self (servers st) |}
  | None => st
  end.

(** The two shapes of [invoke]: the primary template takes the server
    context alone, the specialisation takes the context and the arguments. *)
Inductive InvokeFn (Impl : Type) :=
| Invoke0 (f : ServerContext -> State Impl -> State Impl * Outcome)
| InvokeN (f : ServerContext -> list Value -> State Impl -> State Impl * Outcome).
Arguments Invoke0 {Impl} _.
Arguments InvokeN {Impl} _.

(** The members of a [ProxyMethodTraits<MethodParams>] instantiation. *)
Record MethodTraits (Impl : Type) := {
  Params : TypeList;
  Result : CppType;
  Fields : TypeList;
  invoke : InvokeFn Impl
}.
Arguments Params {Impl} _.
Arguments Result {Impl} _.
Arguments Fields {Impl} _.
Arguments invoke {Impl} _.

(** [invoke] of the primary template: an empty body. *)
Definition invoke_default {Impl : Type} (server_context : ServerContext) (st : State Impl)
  : State Impl * Outcome :=
  (st, Completes (Returned VVoid)).

(** [invoke] of the specialisation:
    [(server_context.proxy_server.m_impl.get()->*impl)(std::forward<Args>(args)...)].
    Each step of the access path is followed as written; there is no test
    between [get()] and [->*].  Where the path ends at no object the call is
    undefined: the state paired with [UndefinedBehaviour] only fills the
    pair and says nothing about what the program does then. *)
Definition invoke_bound {Impl : Type} (impl : NativeMethod Impl)
  (server_context : ServerContext) (args : list Value) (st : State Impl)
  : State Impl * Outcome :=
  match servers st !! proxy_server server_context with
  | None => (st, UndefinedBehaviour)
  | Some srv =>
      match get (m_impl srv) with
      | None => (st, UndefinedBehaviour)
      | Some l =>
          match heap st !! l with
          | None => (st, UndefinedBehaviour)
          | Some blk =>
              let '(obj, c) := body impl (object blk) args in
              ({| heap := <[l := {| use_count := use_count blk; object := obj |}]> (heap st);
                  servers := servers st |},
               Completes c)
          end
      end
  end.

(** [ProxyMethodTraits<MethodParams>]: the specialisation is chosen exactly
    when [ProxyMethod<MethodParams>::impl] exists.  [ProxyMethod] is the
    generated mapping from a params type to its method pointer. *)
Definition ProxyMethodTraits {Impl MethodParams : Type}
  (ProxyMethod : MethodParams -> option (NativeMethod Impl)) (mp : MethodParams)
  : MethodTraits Impl :=
  match ProxyMethod mp with
  | None =>
      let Params : TypeList := [] in
      {| Params := Params; Result := TVoid; Fields := Params;
         invoke := Invoke0 invoke_default |}
  | Some impl =>
      {| Params := FunctionTraits.Params (signature impl);
         Result := FunctionTraits.Result (signature impl);
         Fields := FunctionTraits.Fields (signature impl);
         invoke := InvokeN (invoke_bound impl) |}
  end.

(** [ProxyClientMethodTraits] and [ProxyServerMethodTraits] inherit
    everything from [ProxyMethodTraits]. *)
Definition ProxyClientMethodTraits {Impl MethodParams : Type}
  (ProxyMethod : MethodParams -> option (NativeMethod Impl)) (mp : MethodParams)
  : MethodTraits Impl :=
  ProxyMethodTraits ProxyMethod mp.

Definition ProxyServerMethodTraits {Impl MethodParams : Type}
  (ProxyMethod : MethodParams -> option (NativeMethod Impl)) (mp : MethodParams)
  : MethodTraits Impl :=
  ProxyMethodTraits ProxyMethod mp.

(** Whether a dispatch produced something the language defines. *)
Definition is_defined (o : Outcome) : bool :=
  match o with
  | Completes _ => true
  | UndefinedBehaviour => false
  end.

(** Whether a dispatch ended in an error raised to the caller. *)
Definition is_error (o : Outcome) : bool :=
  match o with
  | Completes (Thrown _) => true
  | _ => false
  end.

End Server.

(** ** Client side: [ProxyClientBase] and the connection's cleanup list *)

Module Client.
Import Common.

(** [CleanupIt]: an iterator into a [CleanupList].  A [std::list] iterator
    names one element for as long as that element is in the list, so an
    iterator is modelled as a number no two elements of a list share. *)
Definition CleanupIt := nat.

(** The [std::function<void()>] values kept in a cleanup list: the closure a
    client proxy registers, capturing the address of the proxy. *)
Inductive CleanupFn :=
| ClientCleanup (proxy : nat).

#[global] Instance CleanupFn_eq_dec : EqDecision CleanupFn.
Proof. solve_decision. Defined.

(** [CleanupList]: the callbacks in list order, each with its iterator. *)
Abbreviation CleanupList := (list (CleanupIt * CleanupFn)).

(** Modelled from the spec: the part of the external [Connection] the core
    consumes, "a registry of cleanup callbacks", with the counter that
    supplies the next iterator. *)
Record Connection := {
  m_cleanup_fns : CleanupList;
  m_next_it : nat
}.

(** The data members of [ProxyClientBase<Interface, Impl>]; [m_client] is the
    remote capability, empty once it has been given up. *)
Record ProxyClientBase := {
  m_client : option nat;
  m_context : ProxyContext;
  m_destroy_connection : bool;
  m_cleanup : CleanupIt
}.

(** Modelled from the spec: the generated [ProxyClient<Interface>], of which
    [proxy.h] has only the declaration: an interface "may opt into" the
    construct and destroy hooks; for each hook, the remote method the
    generated class calls when the interface defines one. *)
Record ProxyClient := {
  construct_override : option string;
  destroy_override : option string
}.

(** Why a connection is torn down. *)
Inductive TeardownCause :=
| ExplicitShutdown
| NetworkError.

(** The objects of the client process and what it has done so far: live
    connections and client proxies by address, the remote calls sent (by
    capability and method), the cleanup callbacks run (by connection and
    iterator) and the connections torn down. *)
Record World := {
  connections : gmap nat Connection;
  clients : gmap nat ProxyClientBase;
  remote_calls : list (option nat * string);
  cleanups_run : list (nat * CleanupIt);
  teardowns : list (nat * TeardownCause)
}.

Definition set_connections (f : gmap nat Connection -> gmap nat Connection) (w : World) : World :=
  {| connections := f (connections w); clients := clients w;
     remote_calls := remote_calls w; cleanups_run := cleanups_run w;
     teardowns := teardowns w |}.

Definition set_clients (f : gmap nat ProxyClientBase -> gmap nat ProxyClientBase) (w : World) : World :=
  {| connections := connections w; clients := f (clients w);
     remote_calls := remote_calls w; cleanups_run := cleanups_run w;
     teardowns := teardowns w |}.

(** Modelled from the spec: [registerCleanup(callback) -> handle] of the
    external [Connection]: "append on proxy construction". *)
Definition registerCleanup (fn : CleanupFn) (conn : Connection) : CleanupIt * Connection :=
  (m_next_it conn,
   {| m_cleanup_fns := m_cleanup_fns conn ++ [(m_next_it conn, fn)];
      m_next_it := S (m_next_it conn) |}).

(** Modelled from the spec: [unregisterCleanup(handle)] of the external
    [Connection]: "remove on destruction". *)
Definition unregisterCleanup (it : CleanupIt) (conn : Connection) : Connection :=
  {| m_cleanup_fns := filter (λ e, e.1 ≠ it) (m_cleanup_fns conn);
     m_next_it := m_next_it conn |}.

(** [void construct() {}] *)
Definition construct (self : nat) (w : World) : World := w.

(** [void destroy() {}] *)
Definition destroy (self : nat) (w : World) : World := w.

(** Modelled from the spec: a lifecycle hook the interface defines is "a
    remote call signaling the far side"; it is sent through the proxy's
    capability. *)
Definition remote_call (self : nat) (method : string) (w : World) : World :=
  {| connections := connections w; clients := clients w;
     remote_calls := remote_calls w ++ [(clients w !! self ≫= m_client, method)];
     cleanups_run := cleanups_run w;
     teardowns := teardowns w |}.

(** [self().construct()]: the member of the generated class when it declares
    one, the base's otherwise. *)
Definition self_construct (gen : ProxyClient) (self : nat) (w : World) : World :=
  match construct_override gen with
  | Some method => remote_call self method w
  | None => construct self w
  end.

(** [self().destroy()] *)
Definition self_destroy (gen : ProxyClient) (self : nat) (w : World) : World :=
  match destroy_override gen with
  | Some method => remote_call self method w
  | None => destroy self w
  end.

(** Modelled from the spec: the constructor [ProxyClientBase(client,
    connection, destroy_connection)], only declared in [proxy.h]: "on
    construction, the proxy registers a callback with the connection's
    cleanup list"; the construct hook runs last.  The connection pointer
    must name a live connection and the address [self] must be free. *)
Definition ProxyClientBase_ctor (gen : ProxyClient) (self : nat) (client : nat)
  (c : nat) (destroy_connection : bool) (w : World) : option World :=
  conn ← connections w !! c;
  match clients w !! self with
  | Some _ => None
  | None =>
      let '(it, conn') := registerCleanup (ClientCleanup self) conn in
      let px := {| m_client := Some client;
                   m_context := {| connection := Some c |};
                   m_destroy_connection := destroy_connection;
                   m_cleanup := it |} in
      Some (self_construct gen self
              (set_clients (insert self px) (set_connections (insert c conn') w)))
  end.

(** Modelled from the spec: what a registered callback does when the
    connection goes first: "the proxy is notified and invalidated rather than
    left holding a dangling reference". *)
Definition invalidate (p : nat) (w : World) : World :=
  set_clients
    (alter (λ px, {| m_client := None;
                     m_context := {| connection := None |};
                     m_destroy_connection := m_destroy_connection px;
                     m_cleanup := m_cleanup px |}) p) w.

(** Modelled from the spec: running one entry of the cleanup list of
    connection [c] during teardown; the run is recorded and the callback
    called. *)
Definition run_cleanup (c : nat) (w : World) (e : CleanupIt * CleanupFn) : World :=
  let w' := {| connections := connections w; clients := clients w;
               remote_calls := remote_calls w;
               cleanups_run := cleanups_run w ++ [(c, e.1)];
               teardowns := teardowns w |} in
  match e.2 with
  | ClientCleanup p => invalidate p w'
  end.

(** Modelled from the spec: tearing down the external [Connection]: "all
    registered cleanup callbacks must run exactly once during teardown, in a
    defined order (e.g., reverse-registration), even if teardown is triggered
    by a network error rather than explicit shutdown".  The spec leaves the
    order open, so it is the parameter [order]. *)
Definition teardown (order : CleanupList -> CleanupList) (cause : TeardownCause)
  (c : nat) (w : World) : World :=
  match connections w !! c with
  | None => w
  | Some conn =>
      let w1 := foldl (run_cleanup c) w (order (m_cleanup_fns conn)) in
      {| connections := delete c (connections w1); clients := clients w1;
         remote_calls := remote_calls w1; cleanups_run := cleanups_run w1;
         teardowns := teardowns w1 ++ [(c, cause)] |}
  end.

(** Modelled from the spec: "no other proxies depend on it".  A proxy
    depends on a connection for as long as its cleanup entry is registered
    there. *)
Definition no_dependents (conn : Connection) : bool :=
  match m_cleanup_fns conn with
  | [] => true
  | _ :: _ => false
  end.

(** Modelled from the spec: the destructor [~ProxyClientBase()], only
    declared in [proxy.h]: the destroy hook is "invoked as a final remote
    call before the object drops its own state"; then the proxy "unregisters
    its cleanup entry from the connection (if the connection still exists);
    if destroy_connection is set, additionally tears down the owning
    connection once no other proxies depend on it". *)
Definition ProxyClientBase_dtor (order : CleanupList -> CleanupList) (gen : ProxyClient)
  (self : nat) (w : World) : option World :=
  px ← clients w !! self;
  let w1 := self_destroy gen self w in
  let w2 :=
    match connection (m_context px) with
    | None => w1
    | Some c =>
        match connections w1 !! c with
        | None => w1
        | Some conn =>
            let conn' := unregisterCleanup (m_cleanup px) conn in
            let w' := set_connections (insert c conn') w1 in
            if m_destroy_connection px && no_dependents conn'
            then teardown order ExplicitShutdown c w'
            else w'
        end
    end in
  Some (set_clients (delete self) w2).

(** The cleanup entries of connection [c]; a connection that is gone has
    none. *)
Definition cleanup_entries (c : nat) (w : World) : CleanupList :=
  match connections w !! c with
  | Some conn => m_cleanup_fns conn
  | None => []
  end.

(** Iterators of a connection name distinct elements and were all handed
    out by its counter. *)
Definition conn_wf (conn : Connection) : Prop :=
  NoDup (m_cleanup_fns conn).*1 ∧
  Forall (λ it, it < m_next_it conn) (m_cleanup_fns conn).*1.

(** Every live connection keeps its iterators distinct. *)
Definition world_wf (w : World) : Prop :=
  forall c conn, connections w !! c = Some conn -> conn_wf conn.

(** What the client process can do, one operation at a time. *)
Inductive step (order : CleanupList -> CleanupList) : World -> World -> Prop :=
| step_connect c w :
    connections w !! c = None ->
    step order w (set_connections (insert c {| m_cleanup_fns := []; m_next_it := 0 |}) w)
| step_ctor gen self client c dc w w' :
    ProxyClientBase_ctor gen self client c dc w = Some w' ->
    step order w w'
| step_dtor gen self w w' :
    ProxyClientBase_dtor order gen self w = Some w' ->
    step order w w'
| step_teardown cause c w :
    step order w (teardown order cause c w).

Definition empty_world : World :=
  {| connections := ∅; clients := ∅; remote_calls := []; cleanups_run := [];
     teardowns := [] |}.

Definition reachable (order : CleanupList -> CleanupList) (w : World) : Prop :=
  rtc (step order) empty_world w.

End Client.

(** ** The callback wrapper [ProxyCallback] *)

Module Callback.
Import Common.

(** [ProxyCallback<std::function<Result(Args...)>>]: one pure virtual member
    [call].  [St] is the state a call can touch. *)
Record ProxyCallback (St : Type) := {
  call : list Value -> St -> St * Completion
}.
Arguments call {St} _ _ _.

(** Modelled from the spec: the server-side adapter, which "implements call
    by invoking a genuine local function value supplied by native code". *)
Definition ServerAdapter {St : Type} (fn : list Value -> St -> St * Completion)
  : ProxyCallback St :=
  {| call := fun args st => fn args st |}.

(** Modelled from the spec: the wire representation is external; the core
    needs arguments and results encoded into messages and decoded again. *)
Record Codec (Msg : Type) := {
  encode_args : list Value -> Msg;
  decode_args : Msg -> option (list Value);
  encode_result : Completion -> Msg;
  decode_result : Msg -> option Completion
}.
Arguments encode_args {Msg} _ _.
Arguments decode_args {Msg} _ _.
Arguments encode_result {Msg} _ _.
Arguments decode_result {Msg} _ _.

(** The error a caller sees when a request or response cannot be carried. *)
Definition connection_error : Completion := Thrown "connection error".

(** Modelled from the spec: the far end of a remote callback capability:
    decode the request, call the target, encode what it did.  A request that
    does not decode is answered with no response. *)
Definition serve {St Msg : Type} (codec : Codec Msg) (target : ProxyCallback St)
  (request : Msg) (st : St) : St * option Msg :=
  match decode_args codec request with
  | Some args =>
      let '(st', c) := call target args st in
      (st', Some (encode_result codec c))
  | None => (st, None)
  end.

(** Modelled from the spec: the client-side adapter, which "implements call
    by marshaling args into a request to a remote callback capability and
    decoding the remote result". *)
Definition ClientAdapter {St Msg : Type} (codec : Codec Msg)
  (remote : Msg -> St -> St * option Msg) : ProxyCallback St :=
  {| call := fun args st =>
       let '(st', response) := remote (encode_args codec args) st in
       match response ≫= decode_result codec with
       | Some c => (st', c)
       | None => (st', connection_error)
       end |}.

End Callback.

(** ** A request dispatched by a generated server handler *)

Module Dispatch.
Import Types Common Server.

(** Modelled from the spec: the generated server handler, which is not part
    of [proxy.h]: "dispatch via Method Trait Dispatch's invoke, passing a
    server context".  The specialisation's [invoke] gets the decoded
    arguments, the primary template's [invoke] takes the context alone. *)
Definition dispatch {Impl MethodParams : Type}
  (ProxyMethod : MethodParams -> option (NativeMethod Impl)) (mp : MethodParams)
  (server_context : ServerContext) (args : list Value) (st : State Impl)
  : State Impl * Outcome :=
  match invoke (ProxyMethodTraits ProxyMethod mp) with
  | Invoke0 f => f server_context st
  | InvokeN f => f server_context args st
  end.

End Dispatch.

(** ** The [Counter] interface of the specification's example scenario *)

Module Counter.
Import Types Common Server Client Callback.
Local Open Scope Z_scope.

(** The native implementation: a running total. *)
Definition Impl := Z.

(** [int increment(int delta)] adds [delta] and returns the new total. *)
Definition increment : NativeMethod Impl :=
  {| signature := {| _Class := "Counter"; _Result := TInt; _Params := [TInt] |};
     body := fun total args =>
       match args with
       | [VInt delta] => (total + delta, Returned (VInt (total + delta)))
       | _ => (total, Thrown "bad arguments")
       end |}.

(** [void clear()] sets the total back to zero. *)
Definition clear : NativeMethod Impl :=
  {| signature := {| _Class := "Counter"; _Result := TVoid; _Params := [] |};
     body := fun _ _ => (0, Returned VVoid) |}.

(** The params types of the interface's methods. *)
Inductive MethodParams :=
| IncrementParams
| ClearParams
| ConstructParams
| DestroyParams.

(** The generated [ProxyMethod] mapping: the lifecycle methods have no
    [impl]. *)
Definition ProxyMethod (mp : MethodParams) : option (NativeMethod Impl) :=
  match mp with
  | IncrementParams => Some increment
  | ClearParams => Some clear
  | ConstructParams => None
  | DestroyParams => None
  end.

(** A server process holding one counter at total 0, owned by the server
    proxy at address 7 alone. *)
Definition fresh_server : State Impl :=
  ProxyServerBase_ctor 7%nat (Some 3%nat) 1%nat
    {| heap := {[ 3%nat := {| use_count := 1; object := 0 |} ]}; servers := ∅ |}.

(** The same, with the counter also owned by native code. *)
Definition shared_server : State Impl :=
  ProxyServerBase_ctor 7%nat (Some 3%nat) 1%nat
    {| heap := {[ 3%nat := {| use_count := 2; object := 0 |} ]}; servers := ∅ |}.

Definition ctx : ServerContext := {| proxy_server := 7%nat |}.

(** A generated client that defines neither lifecycle hook, and one that
    defines both. *)
Definition plain_client : ProxyClient :=
  {| construct_override := None; destroy_override := None |}.

Definition hooked_client : ProxyClient :=
  {| construct_override := Some "construct"; destroy_override := Some "destroy" |}.

(** A client process with connection 1 and two proxies on it already. *)
Definition two_proxies : World :=
  {| connections :=
       {[ 1%nat := {| m_cleanup_fns := [(0%nat, ClientCleanup 10%nat); (1%nat, ClientCleanup 11%nat)];
                      m_next_it := 2%nat |} ]};
     clients :=
       {[ 10%nat := {| m_client := Some 100%nat; m_context := {| connection := Some 1%nat |};
                       m_destroy_connection := false; m_cleanup := 0%nat |};
          11%nat := {| m_client := Some 101%nat; m_context := {| connection := Some 1%nat |};
                       m_destroy_connection := false; m_cleanup := 1%nat |} ]};
     remote_calls := []; cleanups_run := []; teardowns := [] |}.

(** Messages of a wire format that keeps requests and responses apart. *)
Inductive Msg :=
| Request (args : list Value)
| Response (c : Completion).

Definition codec : Codec Msg :=
  {| encode_args := Request;
     decode_args := fun m => match m with Request args => Some args | Response _ => None end;
     encode_result := Response;
     decode_result := fun m => match m with Response c => Some c | Request _ => None end |}.

(** A wire format that loses every response. *)
Definition lossy_codec : Codec Msg :=
  {| encode_args := Request;
     decode_args := fun m => match m with Request args => Some args | Response _ => None end;
     encode_result := Response;
     decode_result := fun _ => None |}.



(** A callback with captured state: it accumulates its integer argument. *)
Definition accumulate (args : list Value) (total : Z) : Z * Completion :=
  match args with
  | [VInt delta] => (total + delta, Returned (VInt (total + delta)))
  | _ => (total, Thrown "bad arguments")
  end.

End Counter.

(** * Properties *)

(** ** Function traits *)

Section FunctionTraitsFacts.
Import Types.

Lemma is_same_true A B : is_same A B = true <-> A = B.
Proof. unfold is_same. apply bool_decide_eq_true. Qed.

Lemma is_same_false A B : is_same A B = false <-> A <> B.
Proof. unfold is_same. apply bool_decide_eq_false. Qed.

Lemma Fields_void Fn :
  FunctionTraits.Result Fn = TVoid -> FunctionTraits.Fields Fn = FunctionTraits.Params Fn.
Proof.
  intros Hv. unfold FunctionTraits.Fields, conditional.
  replace (is_same TVoid (FunctionTraits.Result Fn)) with true; [done |].
  symmetry. apply is_same_true. done.
Qed.

Lemma Fields_nonvoid Fn :
  FunctionTraits.Result Fn <> TVoid ->
  FunctionTraits.Fields Fn = FunctionTraits.Params Fn ++ [FunctionTraits.Result Fn].
Proof.
  intros Hv. unfold FunctionTraits.Fields, conditional.
  replace (is_same TVoid (FunctionTraits.Result Fn)) with false; [done |].
  symmetry. apply is_same_false. congruence.
Qed.

Lemma Param_lookup Fn N T :
  FunctionTraits.Param Fn N = Some T -> T ∈ FunctionTraits.Params Fn.
Proof.
  unfold FunctionTraits.Param, FunctionTraits.Params. intros H.
  apply list_elem_of_lookup. eauto.
Qed.

Lemma Fields_length Fn :
  length (FunctionTraits.Fields Fn) =
  (length (FunctionTraits.Params Fn) +
   if is_same TVoid (FunctionTraits.Result Fn) then 0 else 1)%nat.
Proof.
  unfold FunctionTraits.Fields, conditional.
  destruct (is_same TVoid (FunctionTraits.Result Fn)).
  - lia.
  - unfold FunctionTraits.Params. rewrite length_app. simpl. lia.
Qed.

End FunctionTraitsFacts.

(** ** Accessor flags *)

Section AccessorFacts.
Import Accessors.
Local Open Scope Z_scope.

(** Masking with a single bit and converting to [bool] tests that bit. *)
Lemma to_bool_land_pow2 flags n :
  0 <= n -> to_bool (Z.land flags (2 ^ n)) = Z.testbit flags n.
Proof.
  intros Hn. unfold to_bool.
  destruct (Z.testbit flags n) eqn:Hb.
  - apply negb_true_iff, Z.eqb_neq. intros Hz.
    assert (Ht : Z.testbit (Z.land flags (2 ^ n)) n = true).
    { rewrite Z.land_spec, Hb, Z.pow2_bits_true by lia. done. }
    rewrite Hz, Z.bits_0 in Ht. done.
  - apply negb_false_iff, Z.eqb_eq. apply Z.bits_inj'. intros k Hk.
    rewrite Z.land_spec, Z.bits_0.
    destruct (Z.eq_dec n k) as [<- | Hne].
    + rewrite Hb. done.
    + rewrite Z.pow2_bits_false by lia. apply andb_false_r.
Qed.

Lemma testbit_lxor_pow2 flags n k :
  0 <= n -> 0 <= k ->
  Z.testbit (Z.lxor flags (2 ^ n)) k =
  if Z.eq_dec n k then negb (Z.testbit flags k) else Z.testbit flags k.
Proof.
  intros Hn Hk. rewrite Z.lxor_spec.
  destruct (Z.eq_dec n k) as [<- | Hne].
  - rewrite Z.pow2_bits_true by lia. apply xorb_true_r.
  - rewrite Z.pow2_bits_false by lia. apply xorb_false_r.
Qed.

(** Every member of an accessor is the test of one bit of [flags]. *)
Lemma Accessor_testbits {Field : Type} (f : Field) flags :
  Accessor f flags =
  {| field := f;
     in_ := Z.testbit flags 0;
     out := Z.testbit flags 1;
     optional := Z.testbit flags 2;
     requested := Z.testbit flags 3;
     boxed := Z.testbit flags 4 |}.
Proof.
  unfold Accessor.
  change FIELD_IN with (2 ^ 0). change FIELD_OUT with (2 ^ 1).
  change FIELD_OPTIONAL with (2 ^ 2). change FIELD_REQUESTED with (2 ^ 3).
  change FIELD_BOXED with (2 ^ 4).
  rewrite !to_bool_land_pow2 by lia. reflexivity.
Qed.

Lemma flags_of_range i o p r b : 0 <= flags_of i o p r b < 32.
Proof. destruct i, o, p, r, b; vm_compute; split; congruence. Qed.

Lemma Accessor_flags_of {Field : Type} (f : Field) i o p r b :
  Accessor f (flags_of i o p r b) =
  {| field := f; in_ := i; out := o; optional := p; requested := r; boxed := b |}.
Proof. destruct i, o, p, r, b; reflexivity. Qed.

(** Flipping the bit [2 ^ n] of the flags flips the test of bit [n] and no
    other. *)
Lemma Accessor_lxor_pow2 {Field : Type} (f : Field) flags n :
  0 <= n ->
  Accessor f (Z.lxor flags (2 ^ n)) =
  {| field := f;
     in_ := xorb (in_ (Accessor f flags)) (n =? 0);
     out := xorb (out (Accessor f flags)) (n =? 1);
     optional := xorb (optional (Accessor f flags)) (n =? 2);
     requested := xorb (requested (Accessor f flags)) (n =? 3);
     boxed := xorb (boxed (Accessor f flags)) (n =? 4) |}.
Proof.
  intros Hn. rewrite !Accessor_testbits.
  cbn [in_ out optional requested boxed].
  rewrite !testbit_lxor_pow2 by lia.
  repeat match goal with
         | |- context [Z.eq_dec n ?k] =>
             destruct (Z.eq_dec n k) as [-> | ?]; simpl
         end;
    repeat match goal with
           | |- context [n =? ?k] =>
               let E := fresh in destruct (Z.eqb_spec n k) as [E | E]; [lia |]
           end;
    rewrite ?xorb_true_r, ?xorb_false_r; reflexivity.
Qed.

(** C5. For every integer [flags], each of the five booleans of the accessor
    is the test of its own bit of [flags] ([in] of [FIELD_IN = 1], [out] of
    [FIELD_OUT = 2], [optional] of [FIELD_OPTIONAL = 4], [requested] of
    [FIELD_REQUESTED = 8], [boxed] of [FIELD_BOXED = 16]); each of the 32
    combinations is the accessor of a flags value below 32; flipping one
    flag's bit changes that flag and leaves the four others as they were.
    The members are computed from the template argument alone: there is no
    state they could change with. *)
Theorem Accessor_flags_determined_by_own_bits :
  (forall (Field : Type) (f : Field) (flags : Z),
     let a := Accessor f flags in
     field a = f /\
     (in_ a = true <-> Z.land flags FIELD_IN <> 0) /\
     (out a = true <-> Z.land flags FIELD_OUT <> 0) /\
     (optional a = true <-> Z.land flags FIELD_OPTIONAL <> 0) /\
     (requested a = true <-> Z.land flags FIELD_REQUESTED <> 0) /\
     (boxed a = true <-> Z.land flags FIELD_BOXED <> 0) /\
     in_ a = Z.testbit flags 0 /\ out a = Z.testbit flags 1 /\
     optional a = Z.testbit flags 2 /\ requested a = Z.testbit flags 3 /\
     boxed a = Z.testbit flags 4) /\
  (forall (Field : Type) (f : Field) (i o p r b : bool),
     exists flags, 0 <= flags < 32 /\
       Accessor f flags =
       {| field := f; in_ := i; out := o; optional := p; requested := r; boxed := b |}) /\
  (forall (Field : Type) (f : Field) (flags : Z),
     let a := Accessor f flags in
     Accessor f (Z.lxor flags FIELD_IN) =
       {| field := f; in_ := negb (in_ a); out := out a; optional := optional a;
          requested := requested a; boxed := boxed a |} /\
     Accessor f (Z.lxor flags FIELD_OUT) =
       {| field := f; in_ := in_ a; out := negb (out a); optional := optional a;
          requested := requested a; boxed := boxed a |} /\
     Accessor f (Z.lxor flags FIELD_OPTIONAL) =
       {| field := f; in_ := in_ a; out := out a; optional := negb (optional a);
          requested := requested a; boxed := boxed a |} /\
     Accessor f (Z.lxor flags FIELD_REQUESTED) =
       {| field := f; in_ := in_ a; out := out a; optional := optional a;
          requested := negb (requested a); boxed := boxed a |} /\
     Accessor f (Z.lxor flags FIELD_BOXED) =
       {| field := f; in_ := in_ a; out := out a; optional := optional a;
          requested := requested a; boxed := negb (boxed a) |}).
Proof.
  split; [| split].
  - intros Field f flags a.
    assert (Hiff : forall z, to_bool z = true <-> z <> 0).
    { intros z. unfold to_bool. rewrite negb_true_iff, Z.eqb_neq. done. }
    split; [reflexivity |].
    repeat (split; [apply Hiff |]).
    subst a. rewrite Accessor_testbits. simpl. done.
  - intros Field f i o p r b. exists (flags_of i o p r b).
    split; [apply flags_of_range | apply Accessor_flags_of].
  - intros Field f flags a. subst a.
    change FIELD_IN with (2 ^ 0). change FIELD_OUT with (2 ^ 1).
    change FIELD_OPTIONAL with (2 ^ 2). change FIELD_REQUESTED with (2 ^ 3).
    change FIELD_BOXED with (2 ^ 4).
    rewrite !Accessor_lxor_pow2 by lia. simpl.
    rewrite ?xorb_true_r, ?xorb_false_r. done.
Qed.

End AccessorFacts.

(** ** Method trait dispatch and the server proxy *)

Section ServerFacts.
Import Types Common Server Dispatch.
Context {Impl MethodParams : Type}.
Variable ProxyMethod : MethodParams -> option (NativeMethod Impl).

Lemma reset_empty (p : shared_ptr) (h : gmap nat (ControlBlock Impl)) :
  (reset p h).1 = None.
Proof. destruct p; reflexivity. Qed.

Lemma reset_None (h : gmap nat (ControlBlock Impl)) : reset None h = (None, h).
Proof. reflexivity. Qed.

Lemma invokeDestroy_lookup self srv (st : State Impl) :
  servers st !! self = Some srv ->
  servers (invokeDestroy self st) !! self =
  Some {| m_impl := None; m_context := m_context srv |}.
Proof.
  intros Hs. unfold invokeDestroy. rewrite Hs.
  destruct (m_impl srv); simpl; apply lookup_insert_eq.
Qed.

Lemma invokeDestroy_lookup_ne self other (st : State Impl) :
  self <> other ->
  servers (invokeDestroy self st) !! other = servers st !! other.
Proof.
  intros Hne. unfold invokeDestroy.
  destruct (servers st !! self) as [srv |]; [| done].
  destruct (m_impl srv); simpl; by apply lookup_insert_ne.
Qed.

Lemma invokeDestroy_heap self srv (st : State Impl) :
  servers st !! self = Some srv ->
  heap (invokeDestroy self st) =
  match m_impl srv with
  | Some l => release l (heap st)
  | None => heap st
  end.
Proof.
  intros Hs. unfold invokeDestroy. rewrite Hs. destruct (m_impl srv); reflexivity.
Qed.

Lemma invokeDestroy_missing self (st : State Impl) :
  servers st !! self = None -> invokeDestroy self st = st.
Proof. intros Hs. unfold invokeDestroy. rewrite Hs. done. Qed.

(** On a proxy whose pointer is already empty [invokeDestroy] changes
    nothing. *)
Lemma invokeDestroy_released self ctx (st : State Impl) :
  servers st !! self = Some {| m_impl := None; m_context := ctx |} ->
  invokeDestroy self st = st.
Proof.
  intros Hs. unfold invokeDestroy. rewrite Hs. simpl.
  destruct st as [h s]. simpl in *. f_equal. by apply insert_id.
Qed.

Lemma invoke_bound_released impl self ctx args (st : State Impl) :
  servers st !! self = Some {| m_impl := None; m_context := ctx |} ->
  invoke_bound impl {| proxy_server := self |} args st = (st, UndefinedBehaviour).
Proof. intros Hs. unfold invoke_bound. simpl. rewrite Hs. reflexivity. Qed.

Lemma invoke_bound_live impl sc srv l blk args (st : State Impl) :
  servers st !! proxy_server sc = Some srv ->
  m_impl srv = Some l ->
  heap st !! l = Some blk ->
  invoke_bound impl sc args st =
  ({| heap := <[l := {| use_count := use_count blk;
                        object := (body impl (object blk) args).1 |}]> (heap st);
      servers := servers st |},
   Completes (body impl (object blk) args).2).
Proof.
  intros Hs Hp Hb. unfold invoke_bound. rewrite Hs, Hp. simpl. rewrite Hb.
  destruct (body impl (object blk) args). reflexivity.
Qed.

(** [invoke] of the specialisation is defined exactly when the access path
    [proxy_server.m_impl.get()] ends at a live object. *)
Lemma invoke_bound_defined_iff impl sc args (st : State Impl) :
  is_defined (invoke_bound impl sc args st).2 = true <->
  exists srv l blk,
    servers st !! proxy_server sc = Some srv /\ m_impl srv = Some l /\
    heap st !! l = Some blk.
Proof.
  unfold invoke_bound. split.
  - destruct (servers st !! proxy_server sc) as [srv |]; [| done].
    destruct (m_impl srv) as [l |] eqn:Hp; simpl; [| done].
    destruct (heap st !! l) as [blk |] eqn:Hb; [| done].
    intros _. exists srv, l, blk. done.
  - intros (srv & l & blk & Hs & Hp & Hb). rewrite Hs, Hp. simpl. rewrite Hb.
    destruct (body impl (object blk) args). reflexivity.
Qed.

(** C4. For a params type with a bound native method pointer, the trait
    entry's [Params] is the ordered list of the method's parameter types,
    its [Result] is the method's result type, and its [Fields] is [Params]
    followed by [Result], except that [Fields] is [Params] itself when
    [Result] is [void]. *)
Theorem bound_traits_Params_Result_Fields (mp : MethodParams) (impl : NativeMethod Impl) :
  ProxyMethod mp = Some impl ->
  let t := ProxyMethodTraits ProxyMethod mp in
  Params t = _Params (signature impl) /\
  Result t = _Result (signature impl) /\
  (Result t <> TVoid -> Fields t = Params t ++ [Result t]) /\
  (Result t = TVoid -> Fields t = Params t).
Proof.
  intros Hm t. subst t. unfold ProxyMethodTraits. rewrite Hm. simpl.
  split; [reflexivity |]. split; [reflexivity |]. split.
  - apply Fields_nonvoid.
  - apply Fields_void.
Qed.

(** C3. For a params type with no bound native method pointer, the trait
    entry has [Params] empty, [Result] [void], [Fields] empty, and its
    [invoke] takes the server context alone, leaves the state as it is and
    returns nothing. *)
Theorem unbound_traits_empty_and_invoke_noop (mp : MethodParams) :
  ProxyMethod mp = None ->
  let t := ProxyMethodTraits ProxyMethod mp in
  Params t = [] /\ Result t = TVoid /\ Fields t = [] /\
  exists f, invoke t = Invoke0 f /\
    forall (server_context : ServerContext) (st : State Impl),
      f server_context st = (st, Completes (Returned VVoid)).
Proof.
  intros Hm t. subst t. unfold ProxyMethodTraits. rewrite Hm. simpl.
  repeat (split; [reflexivity |]).
  exists invoke_default. split; reflexivity.
Qed.

(** C2. For a params type with a bound native method pointer and a server
    context whose proxy server holds a live implementation, [invoke] is the
    specialisation's; called with [args] it runs exactly that method's body
    on the wrapped object with [args] as given, keeps what the method did to
    the object, touches nothing else, and completes the way the method did
    (with its result, which is [VVoid] for a [void] method, or its
    exception). *)
Theorem invoke_calls_bound_method (mp : MethodParams) (impl : NativeMethod Impl)
  (server_context : ServerContext) (srv : ProxyServerBase) (l : nat)
  (blk : ControlBlock Impl) (st : State Impl) :
  ProxyMethod mp = Some impl ->
  servers st !! proxy_server server_context = Some srv ->
  get (m_impl srv) = Some l ->
  heap st !! l = Some blk ->
  exists f, invoke (ProxyMethodTraits ProxyMethod mp) = InvokeN f /\
    forall args : list Value,
      let r := body impl (object blk) args in
      f server_context args st =
        ({| heap := <[l := {| use_count := use_count blk; object := r.1 |}]> (heap st);
            servers := servers st |},
         Completes r.2) /\
      dispatch ProxyMethod mp server_context args st = f server_context args st.
Proof.
  intros Hm Hs Hp Hb. unfold dispatch, ProxyMethodTraits. rewrite Hm. simpl.
  exists (invoke_bound impl). split; [reflexivity |].
  intros args. split; [| reflexivity].
  by eapply invoke_bound_live.
Qed.

(** C1, as the code has it. After [invokeDestroy()] the proxy is still there
    with an empty implementation pointer. [invoke] has no check of its own:
    a request dispatched to a bound method then goes through the empty
    pointer, which is an undefined access and not a "target destroyed"
    error; the primary template's [invoke], which never touches the
    implementation, still completes and changes nothing. *)
Theorem dispatch_after_invokeDestroy_unchecked (mp : MethodParams) (self : nat)
  (srv : ProxyServerBase) (args : list Value) (st : State Impl) :
  servers st !! self = Some srv ->
  let st' := invokeDestroy self st in
  servers st' !! self = Some {| m_impl := None; m_context := m_context srv |} /\
  match ProxyMethod mp with
  | Some _ =>
      (dispatch ProxyMethod mp {| proxy_server := self |} args st').2 = UndefinedBehaviour
  | None =>
      dispatch ProxyMethod mp {| proxy_server := self |} args st' =
        (st', Completes (Returned VVoid))
  end.
Proof.
  intros Hs st'. pose proof (invokeDestroy_lookup _ _ _ Hs) as Hl.
  split; [exact Hl |].
  unfold dispatch, ProxyMethodTraits.
  destruct (ProxyMethod mp) as [impl |]; simpl.
  - by erewrite invoke_bound_released.
  - reflexivity.
Qed.

(** C6. Calling [invokeDestroy()] twice leaves the same state as calling it
    once: the implementation released, the proxy object still there with an
    empty pointer. Destroying the proxy after an earlier [invokeDestroy()]
    releases nothing more: the heap stays as [invokeDestroy()] left it,
    which is the heap that destruction alone would have left. *)
Theorem invokeDestroy_idempotent (self : nat) (st : State Impl) :
  invokeDestroy self (invokeDestroy self st) = invokeDestroy self st /\
  (forall srv, servers st !! self = Some srv ->
     servers (invokeDestroy self st) !! self =
     Some {| m_impl := None; m_context := m_context srv |}) /\
  heap (ProxyServerBase_dtor self (invokeDestroy self st)) = heap (invokeDestroy self st) /\
  heap (ProxyServerBase_dtor self (invokeDestroy self st)) = heap (ProxyServerBase_dtor self st) /\
  servers (ProxyServerBase_dtor self (invokeDestroy self st)) = servers (ProxyServerBase_dtor self st).
Proof.
  destruct (servers st !! self) as [srv |] eqn:Hs.
  - pose proof (invokeDestroy_lookup _ _ _ Hs) as Hl.
    split; [by eapply invokeDestroy_released |].
    split; [intros srv' [= <-]; exact Hl |].
    unfold ProxyServerBase_dtor. rewrite Hl, Hs. simpl.
    split; [reflexivity |]. split.
    + rewrite (invokeDestroy_heap _ _ _ Hs). unfold get. reflexivity.
    + unfold invokeDestroy. rewrite Hs. destruct (m_impl srv); simpl;
        apply delete_insert_eq.
  - rewrite (invokeDestroy_missing _ _ Hs).
    split; [by apply invokeDestroy_missing |].
    split; [intros srv' [=] |].
    unfold ProxyServerBase_dtor. rewrite Hs. done.
Qed.

End ServerFacts.

(** ** The theorems at the [Counter] interface *)

Section CounterServer.
Import Types Common Server Dispatch.

Example increment_twice :
  let st1 := (dispatch Counter.ProxyMethod Counter.IncrementParams Counter.ctx
                [VInt 5] Counter.fresh_server) in
  let st2 := dispatch Counter.ProxyMethod Counter.IncrementParams Counter.ctx
               [VInt 5] st1.1 in
  st1.2 = Completes (Returned (VInt 5)) /\ st2.2 = Completes (Returned (VInt 10)).
Proof. split; reflexivity. Qed.

Lemma bound_traits_Params_Result_Fields_witness :
  Counter.ProxyMethod Counter.IncrementParams = Some Counter.increment /\
  Params (ProxyMethodTraits Counter.ProxyMethod Counter.IncrementParams) = [TInt] /\
  Result (ProxyMethodTraits Counter.ProxyMethod Counter.IncrementParams) = TInt /\
  Fields (ProxyMethodTraits Counter.ProxyMethod Counter.IncrementParams) = [TInt; TInt].
Proof.
  split; [reflexivity |].
  destruct (bound_traits_Params_Result_Fields Counter.ProxyMethod
              Counter.IncrementParams Counter.increment eq_refl)
    as (HP & HR & HF & _).
  split; [exact HP |]. split; [exact HR |].
  rewrite HF; [reflexivity | discriminate].
Defined.

Lemma unbound_traits_empty_and_invoke_noop_witness :
  Counter.ProxyMethod Counter.DestroyParams = None /\
  Fields (ProxyMethodTraits Counter.ProxyMethod Counter.DestroyParams) = [] /\
  dispatch Counter.ProxyMethod Counter.DestroyParams Counter.ctx [] Counter.fresh_server =
    (Counter.fresh_server, Completes (Returned VVoid)).
Proof.
  split; [reflexivity |].
  destruct (unbound_traits_empty_and_invoke_noop Counter.ProxyMethod
              Counter.DestroyParams eq_refl)
    as (_ & _ & HF & f & Hf & Hnoop).
  split; [exact HF |].
  unfold dispatch. rewrite Hf. apply Hnoop.
Defined.

Lemma invoke_calls_bound_method_witness :
  Counter.ProxyMethod Counter.IncrementParams = Some Counter.increment /\
  servers Counter.fresh_server !! proxy_server Counter.ctx =
    Some {| m_impl := Some 3; m_context := {| connection := Some 1 |} |} /\
  heap Counter.fresh_server !! 3 = Some {| use_count := 1; object := 0%Z |} /\
  (dispatch Counter.ProxyMethod Counter.IncrementParams Counter.ctx [VInt 5]
     Counter.fresh_server).2 = Completes (Returned (VInt 5)).
Proof.
  split; [reflexivity |]. split; [reflexivity |]. split; [reflexivity |].
  destruct (invoke_calls_bound_method Counter.ProxyMethod Counter.IncrementParams
              Counter.increment Counter.ctx
              {| m_impl := Some 3; m_context := {| connection := Some 1 |} |}
              3 {| use_count := 1; object := 0%Z |} Counter.fresh_server
              eq_refl eq_refl eq_refl eq_refl)
    as (f & _ & Hcall).
  destruct (Hcall [VInt 5]) as [Hf Hd].
  rewrite Hd, Hf. reflexivity.
Defined.

(** C1, as stated, fails: a counter whose implementation has been released
    by [invokeDestroy()] and an [increment] request. The dispatch ends in no
    error at all: it is the undefined access. *)
Lemma dispatch_after_invokeDestroy_counterexample :
  let st := invokeDestroy 7 Counter.fresh_server in
  let r := dispatch Counter.ProxyMethod Counter.IncrementParams Counter.ctx [VInt 5] st in
  servers st !! 7 = Some {| m_impl := None; m_context := {| connection := Some 1 |} |} /\
  heap st = ∅ /\
  r.2 = UndefinedBehaviour /\
  is_error r.2 = false /\
  is_defined r.2 = false.
Proof. repeat split; reflexivity. Qed.

Lemma dispatch_after_invokeDestroy_unchecked_witness :
  servers Counter.fresh_server !! 7 =
    Some {| m_impl := Some 3; m_context := {| connection := Some 1 |} |} /\
  (dispatch Counter.ProxyMethod Counter.ClearParams {| proxy_server := 7 |} []
     (invokeDestroy 7 Counter.fresh_server)).2 = UndefinedBehaviour /\
  (dispatch Counter.ProxyMethod Counter.DestroyParams {| proxy_server := 7 |} []
     (invokeDestroy 7 Counter.fresh_server)).2 = Completes (Returned VVoid).
Proof.
  split; [reflexivity |].
  split.
  - destruct (dispatch_after_invokeDestroy_unchecked Counter.ProxyMethod
                Counter.ClearParams 7 _ [] Counter.fresh_server eq_refl)
      as [_ Hd].
    exact Hd.
  - destruct (dispatch_after_invokeDestroy_unchecked Counter.ProxyMethod
                Counter.DestroyParams 7 _ [] Counter.fresh_server eq_refl)
      as [_ Hd].
    simpl in Hd. rewrite Hd. reflexivity.
Defined.

(** A second release would be visible: with the counter shared with native
    code, one release leaves one owner and a second would delete it. *)
Example double_release_visible :
  heap (invokeDestroy 7 Counter.shared_server) !! 3 =
    Some {| use_count := 1; object := 0%Z |} /\
  release 3 (heap (invokeDestroy 7 Counter.shared_server)) !! 3 = None /\
  heap (ProxyServerBase_dtor 7 (invokeDestroy 7 Counter.shared_server)) !! 3 =
    Some {| use_count := 1; object := 0%Z |}.
Proof. repeat split; reflexivity. Qed.

End CounterServer.

(** ** The callback wrapper *)

Section CallbackFacts.
Import Common Callback.
Context {St Msg : Type}.
Variable codec : Codec Msg.


(** A request that does not decode never reaches the function. *)
Lemma serve_undecodable (target : ProxyCallback St) request st :
  decode_args codec request = None ->
  serve codec target request st = (st, None).
Proof. intros Hargs. unfold serve. rewrite Hargs. reflexivity. Qed.


End CallbackFacts.

Section CounterCallback.
Import Common Callback.

Lemma codec_args_roundtrip args :
  decode_args Counter.codec (encode_args Counter.codec args) = Some args.
Proof. reflexivity. Qed.

Lemma codec_result_roundtrip c :
  decode_result Counter.codec (encode_result Counter.codec c) = Some c.
Proof. reflexivity. Qed.



(** Without a faithful wire format the two calls differ: the function has
    run on the far side, but the caller is told of a connection error. *)
Example lossy_codec_differs :
  call (ClientAdapter Counter.lossy_codec
          (serve Counter.lossy_codec (ServerAdapter Counter.accumulate))) [VInt 5] 37%Z
    = (42%Z, connection_error) /\
  call (ServerAdapter Counter.accumulate) [VInt 5] 37%Z = (42%Z, Returned (VInt 42)).
Proof. split; reflexivity. Qed.

End CounterCallback.

(** ** The cleanup list *)

Section CleanupListFacts.
Import Common Client.

Lemma registerCleanup_entries fn conn :
  m_cleanup_fns (registerCleanup fn conn).2 =
  m_cleanup_fns conn ++ [((registerCleanup fn conn).1, fn)].
Proof. reflexivity. Qed.

Lemma registerCleanup_wf fn conn :
  conn_wf conn -> conn_wf (registerCleanup fn conn).2.
Proof.
  intros [Hnd Hlt]. unfold conn_wf, registerCleanup. simpl.
  rewrite fmap_app. simpl. split.
  - apply NoDup_app. split; [done |]. split; [| apply NoDup_singleton].
    intros it Hin ->%list_elem_of_singleton.
    rewrite Forall_forall in Hlt. specialize (Hlt _ Hin). lia.
  - apply Forall_app. split.
    + eapply Forall_impl; [exact Hlt |]. simpl. lia.
    + apply Forall_singleton. lia.
Qed.

(** The iterators left by a filter are among those that were there, and
    stay distinct. *)
Lemma filter_iterators_elem_of (P : CleanupIt * CleanupFn -> Prop)
  `{forall e, Decision (P e)} (l : CleanupList) it :
  it ∈ (filter P l).*1 -> it ∈ l.*1.
Proof.
  rewrite !list_elem_of_fmap. intros (e & -> & [_ Hin]%list_elem_of_filter). eauto.
Qed.

Lemma filter_iterators_NoDup (P : CleanupIt * CleanupFn -> Prop)
  `{forall e, Decision (P e)} (l : CleanupList) :
  NoDup l.*1 -> NoDup (filter P l).*1.
Proof.
  induction l as [| e l IH]; [done |].
  rewrite fmap_cons, NoDup_cons. intros [Hnin Hnd].
  rewrite filter_cons. destruct (decide (P e)); [| by apply IH].
  rewrite fmap_cons, NoDup_cons. split; [| by apply IH].
  intros Hin. apply Hnin. by eapply filter_iterators_elem_of.
Qed.

Lemma unregisterCleanup_wf it conn :
  conn_wf conn -> conn_wf (unregisterCleanup it conn).
Proof.
  intros [Hnd Hlt]. unfold conn_wf, unregisterCleanup. simpl. split.
  - by apply filter_iterators_NoDup.
  - rewrite Forall_forall in Hlt |- *. intros x Hx. apply Hlt.
    by eapply filter_iterators_elem_of.
Qed.

(** Unregistering an iterator the list does not hold leaves it as it is. *)
Lemma filter_ne_fresh (it : CleanupIt) (l : CleanupList) :
  it ∉ l.*1 -> filter (λ e : CleanupIt * CleanupFn, e.1 ≠ it) l = l.
Proof.
  induction l as [| e l IH]; [done |].
  rewrite fmap_cons, not_elem_of_cons. intros [Hne Hnin].
  rewrite filter_cons_True by (simpl; congruence). f_equal. by apply IH.
Qed.

(** Registering and then unregistering with the iterator handed out gives
    the list back. *)
Lemma unregister_registered fn conn :
  conn_wf conn ->
  m_cleanup_fns (unregisterCleanup (registerCleanup fn conn).1 (registerCleanup fn conn).2)
  = m_cleanup_fns conn.
Proof.
  intros [_ Hlt]. unfold unregisterCleanup, registerCleanup. simpl.
  rewrite filter_app, filter_cons_False, filter_nil, app_nil_r by (simpl; tauto).
  apply filter_ne_fresh. intros Hin.
  rewrite Forall_forall in Hlt. specialize (Hlt _ Hin). lia.
Qed.

(** Unregistering removes the entry of that iterator and no other. *)
Lemma unregisterCleanup_elem_of it conn e :
  e ∈ m_cleanup_fns (unregisterCleanup it conn) <->
  e ∈ m_cleanup_fns conn /\ e.1 ≠ it.
Proof. unfold unregisterCleanup. simpl. rewrite list_elem_of_filter. tauto. Qed.

Lemma no_dependents_nil conn :
  no_dependents conn = true <-> m_cleanup_fns conn = [].
Proof. unfold no_dependents. destruct (m_cleanup_fns conn); split; done. Qed.

End CleanupListFacts.

(** ** Client proxies and connection teardown *)

Section ClientFacts.
Import Common Client.
Variable order : list (CleanupIt * CleanupFn) -> list (CleanupIt * CleanupFn).

Lemma remote_call_connections self method w :
  connections (remote_call self method w) = connections w.
Proof. reflexivity. Qed.

Lemma remote_call_clients self method w :
  clients (remote_call self method w) = clients w.
Proof. reflexivity. Qed.

Lemma self_construct_connections gen self w :
  connections (self_construct gen self w) = connections w.
Proof. unfold self_construct. destruct (construct_override gen); reflexivity. Qed.

Lemma self_construct_clients gen self w :
  clients (self_construct gen self w) = clients w.
Proof. unfold self_construct. destruct (construct_override gen); reflexivity. Qed.

Lemma self_construct_cleanups_run gen self w :
  cleanups_run (self_construct gen self w) = cleanups_run w.
Proof. unfold self_construct. destruct (construct_override gen); reflexivity. Qed.

Lemma self_destroy_connections gen self w :
  connections (self_destroy gen self w) = connections w.
Proof. unfold self_destroy. destruct (destroy_override gen); reflexivity. Qed.

Lemma self_destroy_clients gen self w :
  clients (self_destroy gen self w) = clients w.
Proof. unfold self_destroy. destruct (destroy_override gen); reflexivity. Qed.

(** Running cleanup entries touches neither the connections nor the remote
    calls, and logs the entries in the order they are run. *)
Lemma run_cleanups_connections c l w :
  connections (foldl (run_cleanup c) w l) = connections w.
Proof.
  revert w. induction l as [| [it [p]] l IH]; intros w; [done |].
  simpl. rewrite IH. reflexivity.
Qed.

Lemma run_cleanups_remote_calls c l w :
  remote_calls (foldl (run_cleanup c) w l) = remote_calls w.
Proof.
  revert w. induction l as [| [it [p]] l IH]; intros w; [done |].
  simpl. rewrite IH. reflexivity.
Qed.

Lemma run_cleanups_teardowns c l w :
  teardowns (foldl (run_cleanup c) w l) = teardowns w.
Proof.
  revert w. induction l as [| [it [p]] l IH]; intros w; [done |].
  simpl. rewrite IH. reflexivity.
Qed.

Lemma run_cleanups_log c l w :
  cleanups_run (foldl (run_cleanup c) w l) =
  cleanups_run w ++ ((λ e : CleanupIt * CleanupFn, (c, e.1)) <$> l).
Proof.
  revert w. induction l as [| [it [p]] l IH]; intros w.
  - simpl. by rewrite app_nil_r.
  - simpl. rewrite IH. simpl. by rewrite <- app_assoc.
Qed.

(** A proxy no entry names is left alone. *)
Lemma run_cleanups_clients_other c l w q :
  ClientCleanup q ∉ l.*2 ->
  clients (foldl (run_cleanup c) w l) !! q = clients w !! q.
Proof.
  revert w. induction l as [| [it [p]] l IH]; intros w; [done |].
  rewrite fmap_cons, not_elem_of_cons. simpl. intros [Hne Hnin].
  rewrite IH by done. simpl. apply lookup_alter_ne. congruence.
Qed.

Lemma teardown_missing cause c w :
  connections w !! c = None -> teardown order cause c w = w.
Proof. intros Hc. unfold teardown. rewrite Hc. reflexivity. Qed.

Lemma teardown_connections cause c w :
  connections (teardown order cause c w) = delete c (connections w).
Proof.
  unfold teardown. destruct (connections w !! c) as [conn |] eqn:Hc; simpl.
  - by rewrite run_cleanups_connections.
  - symmetry. by apply delete_id.
Qed.

Lemma teardown_remote_calls cause c w :
  remote_calls (teardown order cause c w) = remote_calls w.
Proof.
  unfold teardown. destruct (connections w !! c) as [conn |]; simpl; [| done].
  by rewrite run_cleanups_remote_calls.
Qed.

Lemma teardown_log cause c conn w :
  connections w !! c = Some conn ->
  cleanups_run (teardown order cause c w) =
  cleanups_run w ++ ((λ e : CleanupIt * CleanupFn, (c, e.1)) <$> order (m_cleanup_fns conn)).
Proof.
  intros Hc. unfold teardown. rewrite Hc. simpl. apply run_cleanups_log.
Qed.

(** What construction leaves behind: the proxy with its fields set, its
    callback registered last, and the construct hook run. *)
Lemma ctor_result gen self client c dc conn w :
  connections w !! c = Some conn ->
  clients w !! self = None ->
  ProxyClientBase_ctor gen self client c dc w =
  Some (self_construct gen self
          (set_clients
             (insert self {| m_client := Some client;
                             m_context := {| connection := Some c |};
                             m_destroy_connection := dc;
                             m_cleanup := m_next_it conn |})
             (set_connections (insert c (registerCleanup (ClientCleanup self) conn).2) w))).
Proof.
  intros Hc Hself. unfold ProxyClientBase_ctor. rewrite Hc. simpl. rewrite Hself.
  reflexivity.
Qed.

Lemma ctor_Some_inv gen self client c dc w w' :
  ProxyClientBase_ctor gen self client c dc w = Some w' ->
  exists conn, connections w !! c = Some conn /\ clients w !! self = None.
Proof.
  unfold ProxyClientBase_ctor.
  destruct (connections w !! c) as [conn |]; simpl; [| done].
  destruct (clients w !! self); [done |]. eauto.
Qed.

(** What destruction does to a proxy that still has its connection. *)
Lemma dtor_result gen self px c conn w :
  clients w !! self = Some px ->
  connection (m_context px) = Some c ->
  connections w !! c = Some conn ->
  ProxyClientBase_dtor order gen self w =
  Some (set_clients (delete self)
          (if m_destroy_connection px && no_dependents (unregisterCleanup (m_cleanup px) conn)
           then teardown order ExplicitShutdown c
                  (set_connections (insert c (unregisterCleanup (m_cleanup px) conn))
                     (self_destroy gen self w))
           else set_connections (insert c (unregisterCleanup (m_cleanup px) conn))
                  (self_destroy gen self w))).
Proof.
  intros Hpx Hctx Hc. unfold ProxyClientBase_dtor. rewrite Hpx. simpl.
  rewrite Hctx, self_destroy_connections, Hc. reflexivity.
Qed.

(** Tearing down a connection with no cleanup entry runs nothing. *)
Lemma teardown_no_entries cause c conn w :
  order [] = [] ->
  connections w !! c = Some conn ->
  m_cleanup_fns conn = [] ->
  teardown order cause c w =
  {| connections := delete c (connections w); clients := clients w;
     remote_calls := remote_calls w; cleanups_run := cleanups_run w;
     teardowns := teardowns w ++ [(c, cause)] |}.
Proof.
  intros Hnil Hc Hempty. unfold teardown. rewrite Hc, Hempty, Hnil. reflexivity.
Qed.

Lemma self_destroy_cleanups_run gen self w :
  cleanups_run (self_destroy gen self w) = cleanups_run w.
Proof. unfold self_destroy. destruct (destroy_override gen); reflexivity. Qed.

(** C8. Constructing a client proxy on a live connection and destroying it
    at once: both succeed; the construction registers the proxy's cleanup
    entry after the entries already there; the destruction takes exactly
    that entry out again, so the connection's cleanup entries are the ones
    it had before, in their order; the client proxies are the ones there
    were before; no callback is run; the other connections are as they
    were; and the connection itself stays unless the proxy was to destroy it
    and no other proxy depends on it. *)
Theorem ctor_then_dtor_unregisters_own_entry (gen : ProxyClient) (self client c : nat)
  (dc : bool) (conn : Connection) (w : World) :
  order [] = [] ->
  connections w !! c = Some conn ->
  conn_wf conn ->
  clients w !! self = None ->
  exists w1 w2,
    ProxyClientBase_ctor gen self client c dc w = Some w1 /\
    ProxyClientBase_dtor order gen self w1 = Some w2 /\
    cleanup_entries c w1 = m_cleanup_fns conn ++ [(m_next_it conn, ClientCleanup self)] /\
    cleanup_entries c w2 = m_cleanup_fns conn /\
    clients w2 = clients w /\
    cleanups_run w2 = cleanups_run w /\
    (forall c', c' ≠ c -> connections w2 !! c' = connections w !! c') /\
    (dc = false \/ m_cleanup_fns conn ≠ [] -> is_Some (connections w2 !! c)).
Proof.
  intros Hnil Hc Hwf Hself.
  pose (px := {| m_client := Some client; m_context := {| connection := Some c |};
                 m_destroy_connection := dc; m_cleanup := m_next_it conn |}).
  pose (conn1 := (registerCleanup (ClientCleanup self) conn).2).
  pose (w0 := set_clients (insert self px) (set_connections (insert c conn1) w)).
  pose (w1 := self_construct gen self w0).
  pose (conn2 := unregisterCleanup (m_cleanup px) conn1).
  pose (w' := set_connections (insert c conn2) (self_destroy gen self w1)).
  assert (Hctor : ProxyClientBase_ctor gen self client c dc w = Some w1)
    by (by apply ctor_result).
  assert (Hpx : clients w1 !! self = Some px).
  { unfold w1. rewrite self_construct_clients. apply lookup_insert_eq. }
  assert (Hc1 : connections w1 !! c = Some conn1).
  { unfold w1. rewrite self_construct_connections. apply lookup_insert_eq. }
  assert (Hunreg : m_cleanup_fns conn2 = m_cleanup_fns conn).
  { by apply (unregister_registered (ClientCleanup self)). }
  assert (Hclients' : delete self (clients w') = clients w).
  { unfold w', w1, w0.
    change (clients (set_connections ?f ?x)) with (clients x).
    rewrite self_destroy_clients, self_construct_clients.
    change (clients (set_clients ?f ?x)) with (f (clients x)).
    change (clients (set_connections ?f ?x)) with (clients x).
    rewrite delete_insert_eq. by apply delete_id. }
  assert (Hrun' : cleanups_run w' = cleanups_run w).
  { unfold w', w1, w0.
    change (cleanups_run (set_connections ?f ?x)) with (cleanups_run x).
    by rewrite self_destroy_cleanups_run, self_construct_cleanups_run. }
  assert (Hconn' : connections w' = <[c := conn2]> (<[c := conn1]> (connections w))).
  { unfold w', w1, w0.
    change (connections (set_connections ?f ?x)) with (f (connections x)).
    by rewrite self_destroy_connections, self_construct_connections. }
  exists w1. eexists. split; [exact Hctor |].
  split; [by apply (dtor_result gen self px c conn1) |].
  split.
  { unfold cleanup_entries. rewrite Hc1. reflexivity. }
  fold conn2. fold w'.
  change (m_destroy_connection px) with dc.
  destruct (dc && no_dependents conn2) eqn:Hdc.
  - apply andb_true_iff in Hdc as [-> Hdep].
    apply no_dependents_nil in Hdep.
    assert (Hc' : connections w' !! c = Some conn2).
    { rewrite Hconn'. apply lookup_insert_eq. }
    rewrite (teardown_no_entries ExplicitShutdown c conn2 w' Hnil Hc' Hdep).
    unfold cleanup_entries. cbn [connections clients cleanups_run set_clients].
    rewrite lookup_delete_eq.
    split; [by rewrite <- Hunreg |].
    split; [exact Hclients' |]. split; [exact Hrun' |].
    split.
    + intros c' Hne. rewrite lookup_delete_ne, Hconn' by done.
      by rewrite !lookup_insert_ne.
    + rewrite <- Hunreg. intros [? | ?]; done.
  - unfold cleanup_entries. cbn [connections clients cleanups_run set_clients].
    assert (Hc' : connections w' !! c = Some conn2).
    { rewrite Hconn'. apply lookup_insert_eq. }
    rewrite Hc'.
    split; [exact Hunreg |].
    split; [exact Hclients' |]. split; [exact Hrun' |].
    split.
    + intros c' Hne. rewrite Hconn'. by rewrite !lookup_insert_ne.
    + intros _. eauto.
Qed.

(** C10. For an interface whose generated client defines neither
    [construct()] nor [destroy()], [self().construct()] and
    [self().destroy()] are the base's empty members and change nothing:
    construction is the base construction alone (the proxy stored with its
    fields, its cleanup callback registered), and neither construction nor
    destruction sends a remote call. *)
Theorem default_lifecycle_hooks_are_noops (gen : ProxyClient) :
  construct_override gen = None ->
  destroy_override gen = None ->
  (forall self w, self_construct gen self w = construct self w /\ construct self w = w) /\
  (forall self w, self_destroy gen self w = destroy self w /\ destroy self w = w) /\
  (forall self client c dc w w',
     ProxyClientBase_ctor gen self client c dc w = Some w' ->
     remote_calls w' = remote_calls w /\
     exists conn, connections w !! c = Some conn /\
       w' = set_clients
              (insert self {| m_client := Some client;
                              m_context := {| connection := Some c |};
                              m_destroy_connection := dc;
                              m_cleanup := m_next_it conn |})
              (set_connections (insert c (registerCleanup (ClientCleanup self) conn).2) w)) /\
  (forall self w w',
     ProxyClientBase_dtor order gen self w = Some w' ->
     remote_calls w' = remote_calls w).
Proof.
  intros Hcons Hdes.
  assert (Hsc : forall self w, self_construct gen self w = w).
  { intros. unfold self_construct. rewrite Hcons. reflexivity. }
  assert (Hsd : forall self w, self_destroy gen self w = w).
  { intros. unfold self_destroy. rewrite Hdes. reflexivity. }
  split; [| split; [| split]].
  - intros self w. unfold self_construct. rewrite Hcons. done.
  - intros self w. unfold self_destroy. rewrite Hdes. done.
  - intros self client c dc w w' Hctor.
    destruct (ctor_Some_inv _ _ _ _ _ _ _ Hctor) as (conn & Hc & Hself).
    rewrite (ctor_result gen self client c dc conn w Hc Hself), Hsc in Hctor.
    injection Hctor as <-. split; [reflexivity | eauto].
  - intros self w w'. unfold ProxyClientBase_dtor.
    destruct (clients w !! self) as [px |]; simpl; [| done].
    rewrite Hsd. intros [= <-].
    destruct (connection (m_context px)) as [c |]; [| reflexivity].
    destruct (connections w !! c) as [conn |]; [| reflexivity].
    destruct (m_destroy_connection px && _); [| reflexivity].
    cbn [remote_calls set_clients]. by rewrite teardown_remote_calls.
Qed.

(** ** The iterators stay distinct in every state the process can reach *)

Lemma world_wf_insert c conn w :
  world_wf w -> conn_wf conn -> world_wf (set_connections (insert c conn) w).
Proof.
  intros Hw Hconn c' conn'. cbn [connections set_connections].
  destruct (decide (c = c')) as [<- | Hne].
  - rewrite lookup_insert_eq. by intros [= <-].
  - rewrite lookup_insert_ne by done. apply Hw.
Qed.

Lemma world_wf_same_connections w w' :
  connections w' = connections w -> world_wf w -> world_wf w'.
Proof. intros Heq Hw c conn. rewrite Heq. apply Hw. Qed.

Lemma world_wf_teardown cause c w :
  world_wf w -> world_wf (teardown order cause c w).
Proof.
  intros Hw c' conn'. rewrite teardown_connections.
  intros [_ Hl]%lookup_delete_Some. by eapply Hw.
Qed.

Lemma step_wf w w' : step order w w' -> world_wf w -> world_wf w'.
Proof.
  intros Hstep Hw. destruct Hstep as [c w Hfresh | gen self client c dc w w' Hctor
                                     | gen self w w' Hdtor | cause c w].
  - apply world_wf_insert; [done |]. split; simpl; constructor.
  - destruct (ctor_Some_inv _ _ _ _ _ _ _ Hctor) as (conn & Hc & Hself).
    rewrite (ctor_result gen self client c dc conn w Hc Hself) in Hctor.
    injection Hctor as <-.
    eapply world_wf_same_connections; [apply self_construct_connections |].
    eapply world_wf_same_connections; [reflexivity |].
    apply world_wf_insert; [done |]. apply registerCleanup_wf. by eapply Hw.
  - unfold ProxyClientBase_dtor in Hdtor.
    destruct (clients w !! self) as [px |]; simpl in Hdtor; [| done].
    injection Hdtor as <-.
    eapply world_wf_same_connections; [reflexivity |].
    assert (Hw1 : world_wf (self_destroy gen self w)).
    { eapply world_wf_same_connections; [apply self_destroy_connections | done]. }
    destruct (connection (m_context px)) as [c |]; [| done].
    destruct (connections (self_destroy gen self w) !! c) as [conn |] eqn:Hc; [| done].
    assert (Hw2 : world_wf (set_connections (insert c (unregisterCleanup (m_cleanup px) conn))
                              (self_destroy gen self w))).
    { apply world_wf_insert; [done |]. apply unregisterCleanup_wf. by eapply Hw1. }
    destruct (m_destroy_connection px && _); [| done].
    by apply world_wf_teardown.
  - by apply world_wf_teardown.
Qed.

Lemma reachable_wf w : reachable order w -> world_wf w.
Proof.
  unfold reachable. intros Hr.
  eapply (rtc_ind_r (λ w, world_wf w)); [| | exact Hr].
  - intros c conn. unfold empty_world. simpl. by rewrite lookup_empty.
  - intros y z _ Hstep Hy. by eapply step_wf.
Qed.

End ClientFacts.

(** ** The theorems at a connection with two proxies *)

Section CounterClient.
Import Common Client.

(** The cleanup list of connection 1 in [Counter.two_proxies]. *)
Lemma two_proxies_connection :
  connections Counter.two_proxies !! 1 =
  Some {| m_cleanup_fns := [(0, ClientCleanup 10); (1, ClientCleanup 11)]; m_next_it := 2 |}.
Proof. reflexivity. Qed.

Lemma two_proxies_conn_wf :
  conn_wf {| m_cleanup_fns := [(0, ClientCleanup 10); (1, ClientCleanup 11)]; m_next_it := 2 |}.
Proof.
  split; simpl.
  - apply NoDup_cons. split; [by intros ?%list_elem_of_singleton |]. apply NoDup_singleton.
  - repeat constructor.
Qed.

(** [Counter.two_proxies] is a state the process can reach. *)
Example two_proxies_reachable : reachable reverse Counter.two_proxies.
Proof.
  unfold reachable.
  eapply rtc_l; [apply (step_connect reverse 1); reflexivity |].
  eapply rtc_l;
    [apply (step_ctor reverse Counter.plain_client 10 100 1 false); reflexivity |].
  eapply rtc_l;
    [apply (step_ctor reverse Counter.plain_client 11 101 1 false); reflexivity |].
  simpl. unfold Counter.two_proxies, set_clients, set_connections, construct. simpl.
  rewrite !insert_insert_eq, insert_empty.
  replace (<[11:=_]> (<[10:=_]> ∅) : gmap nat ProxyClientBase)
    with ({[ 10 := {| m_client := Some 100; m_context := {| connection := Some 1 |};
                      m_destroy_connection := false; m_cleanup := 0 |};
             11 := {| m_client := Some 101; m_context := {| connection := Some 1 |};
                      m_destroy_connection := false; m_cleanup := 1 |} ]}
          : gmap nat ProxyClientBase).
  - apply rtc_refl.
  - rewrite insert_empty. apply insert_insert_ne. done.
Qed.

Lemma ctor_then_dtor_unregisters_own_entry_witness :
  clients Counter.two_proxies !! 12 = None /\
  exists w1 w2,
    ProxyClientBase_ctor Counter.hooked_client 12 102 1 true Counter.two_proxies = Some w1 /\
    ProxyClientBase_dtor reverse Counter.hooked_client 12 w1 = Some w2 /\
    cleanup_entries 1 w1 =
      [(0, ClientCleanup 10); (1, ClientCleanup 11); (2, ClientCleanup 12)] /\
    cleanup_entries 1 w2 = [(0, ClientCleanup 10); (1, ClientCleanup 11)] /\
    clients w2 = clients Counter.two_proxies.
Proof.
  split; [reflexivity |].
  destruct (ctor_then_dtor_unregisters_own_entry reverse Counter.hooked_client 12 102 1 true
              _ Counter.two_proxies eq_refl two_proxies_connection two_proxies_conn_wf
              eq_refl)
    as (w1 & w2 & Hctor & Hdtor & He1 & He2 & Hcl & _).
  exists w1, w2. repeat split; assumption.
Defined.

Lemma default_lifecycle_hooks_are_noops_witness :
  construct_override Counter.plain_client = None /\
  destroy_override Counter.plain_client = None /\
  self_construct Counter.plain_client 10 Counter.two_proxies = Counter.two_proxies /\
  self_destroy Counter.plain_client 10 Counter.two_proxies = Counter.two_proxies.
Proof.
  split; [reflexivity |]. split; [reflexivity |].
  destruct (default_lifecycle_hooks_are_noops reverse Counter.plain_client eq_refl eq_refl)
    as (Hc & Hd & _).
  split.
  - destruct (Hc 10 Counter.two_proxies) as [-> ->]. reflexivity.
  - destruct (Hd 10 Counter.two_proxies) as [-> ->]. reflexivity.
Defined.

(** A generated client that does define the hooks sends one remote call in
    each. *)
Example hooked_client_calls :
  remote_calls (self_construct Counter.hooked_client 10 Counter.two_proxies) =
    [(Some 100, "construct"%string)] /\
  remote_calls (self_destroy Counter.hooked_client 10 Counter.two_proxies) =
    [(Some 100, "destroy"%string)].
Proof. split; reflexivity. Qed.

(** A proxy destroyed after its connection was torn down finds itself
    invalidated and touches no connection. *)
Example teardown_invalidates_proxies :
  let w := teardown reverse NetworkError 1 Counter.two_proxies in
  clients w !! 10 = Some {| m_client := None; m_context := {| connection := None |};
                            m_destroy_connection := false; m_cleanup := 0 |} /\
  (ProxyClientBase_dtor reverse Counter.plain_client 10 w ≫= λ w', Some (cleanups_run w'))
    = Some [(1, 1); (1, 0)].
Proof. split; reflexivity. Qed.

End CounterClient.

(** * Further properties of the header's own code *)

(** ** [FunctionTraits]: [Param<N>] against [Fields] *)

Section FunctionTraitsIndexing.
Import Types.

(** X1. [Param<N>] names a type exactly for [N] below the number of
    parameters. Looking up [Fields] by index: below the number of parameters
    field [N] is [Param<N>]; the slot right after the last parameter holds
    [Result] when it is not [void]; there is nothing anywhere else. *)
Theorem Fields_lookup_by_index (Fn : MemFnPtr) (N : nat) :
  (is_Some (FunctionTraits.Param Fn N) <-> N < length (FunctionTraits.Params Fn)) /\
  FunctionTraits.Fields Fn !! N =
    if decide (N < length (FunctionTraits.Params Fn)) then FunctionTraits.Param Fn N
    else if decide (N = length (FunctionTraits.Params Fn)) then
      if is_same TVoid (FunctionTraits.Result Fn) then None
      else Some (FunctionTraits.Result Fn)
    else None.
Proof.
  unfold FunctionTraits.Param, FunctionTraits.Fields, FunctionTraits.Params,
    FunctionTraits.Result, conditional, TypeList.
  split; [apply lookup_lt_is_Some |].
  destruct (decide (N < length (_Params Fn))) as [Hlt | Hge].
  - destruct (is_same TVoid (_Result Fn)); [done |]. by apply lookup_app_l.
  - destruct (decide (N = length (_Params Fn))) as [-> | Hne].
    + destruct (is_same TVoid (_Result Fn)).
      * by apply lookup_ge_None.
      * rewrite lookup_app_r by done. by rewrite Nat.sub_diag.
    + destruct (is_same TVoid (_Result Fn)).
      * apply lookup_ge_None. lia.
      * apply lookup_ge_None. rewrite length_app. simpl. lia.
Qed.

(** X2. A type is among [Fields] exactly when it is a parameter type, or it
    is the result type and not [void]. So [void] is never a field on account
    of the result. *)
Theorem Fields_membership (Fn : MemFnPtr) (T : CppType) :
  (T ∈ FunctionTraits.Fields Fn <->
   T ∈ FunctionTraits.Params Fn \/ (T = FunctionTraits.Result Fn /\ T <> TVoid)) /\
  (TVoid ∈ FunctionTraits.Fields Fn <-> TVoid ∈ FunctionTraits.Params Fn).
Proof.
  assert (Hmem : forall U, U ∈ FunctionTraits.Fields Fn <->
            U ∈ FunctionTraits.Params Fn \/ (U = FunctionTraits.Result Fn /\ U <> TVoid)).
  { intros U. destruct (decide (FunctionTraits.Result Fn = TVoid)) as [Hv | Hnv].
    - rewrite (Fields_void _ Hv). split; [by left |].
      intros [? | [-> ?]]; done.
    - rewrite (Fields_nonvoid _ Hnv), elem_of_app, list_elem_of_singleton.
      split; intros [? | H]; auto.
      + right. split; congruence.
      + right. tauto. }
  split; [apply Hmem |].
  rewrite Hmem. split; [| by left].
  intros [? | [_ ?]]; done.
Qed.

End FunctionTraitsIndexing.

(** ** [Accessor]: what the flags word contributes *)

Section AccessorComposition.
Import Accessors.
Local Open Scope Z_scope.

Lemma testbit_31 n : 0 <= n -> Z.testbit 31 n = (n <? 5).
Proof.
  intros Hn. change 31 with (Z.ones 5).
  rewrite Z.testbit_ones_nonneg by lia. reflexivity.
Qed.

(** Only the low five bits of the flags reach the accessor. *)
Lemma Accessor_land_31 {Field : Type} (f : Field) flags :
  Accessor f (Z.land flags 31) = Accessor f flags.
Proof.
  rewrite !Accessor_testbits, !Z.land_spec.
  rewrite !testbit_31 by lia. simpl. by rewrite !andb_true_r.
Qed.

(** X3. Two flags values give the same accessor for a field exactly when
    they agree on their low five bits: every bit from 32 upwards, the sign
    included, is ignored, and each of the low five bits is visible. *)
Theorem Accessor_eq_iff_low_bits {Field : Type} (f : Field) (a b : Z) :
  Accessor f a = Accessor f b <-> Z.land a 31 = Z.land b 31.
Proof.
  split.
  - rewrite !Accessor_testbits. intros [= H0 H1 H2 H3 H4].
    apply Z.bits_inj'. intros n Hn. rewrite !Z.land_spec, testbit_31 by done.
    destruct (Z.ltb_spec n 5) as [Hlt | Hge]; [| by rewrite !andb_false_r].
    rewrite !andb_true_r.
    assert (Hcases : n = 0 \/ n = 1 \/ n = 2 \/ n = 3 \/ n = 4) by lia.
    destruct Hcases as [-> | [-> | [-> | [-> | ->]]]]; assumption.
  - intros Heq.
    rewrite <- (Accessor_land_31 f a), <- (Accessor_land_31 f b), Heq. reflexivity.
Qed.

(** X4. Flags compose member by member: the accessor of [a | b] has a
    member set exactly when [a]'s or [b]'s accessor has it, and the accessor
    of [a & b] exactly when both have it. *)
Theorem Accessor_lor_land {Field : Type} (f : Field) (a b : Z) :
  Accessor f (Z.lor a b) =
    {| field := f;
       in_ := in_ (Accessor f a) || in_ (Accessor f b);
       out := out (Accessor f a) || out (Accessor f b);
       optional := optional (Accessor f a) || optional (Accessor f b);
       requested := requested (Accessor f a) || requested (Accessor f b);
       boxed := boxed (Accessor f a) || boxed (Accessor f b) |} /\
  Accessor f (Z.land a b) =
    {| field := f;
       in_ := in_ (Accessor f a) && in_ (Accessor f b);
       out := out (Accessor f a) && out (Accessor f b);
       optional := optional (Accessor f a) && optional (Accessor f b);
       requested := requested (Accessor f a) && requested (Accessor f b);
       boxed := boxed (Accessor f a) && boxed (Accessor f b) |}.
Proof.
  rewrite !Accessor_testbits. cbn [in_ out optional requested boxed].
  rewrite !Z.lor_spec, !Z.land_spec. done.
Qed.

End AccessorComposition.

